(** * Fatal error handler registry (source/common/signal/fatal_error_handler.cc)

    A shallow embedding of the three entry points of the registry,
    [registerFatalErrorHandler], [removeFatalErrorHandler] and
    [callFatalErrorHandlers], over an explicit program state: the atomic
    slot [fatal_error_handlers], the heap cells holding the
    [FailureFunctionList] objects made by [new] and released by [delete],
    and the log of the [onFatalError] calls performed so far.

    The executions considered are sequential: one entry point runs to
    completion before the next one starts.  The scoped [absl::MutexLock] on
    [failure_mutex] is taken on entry and released on exit of the two
    administrative entry points, so it is free between any two calls and is
    not part of the state carried from one call to the next.

    The last part of the file goes one step further: a fatal signal, whose
    handler runs [callFatalErrorHandlers] to its end, is delivered to a
    thread between two statements of an entry point. *)

From stdpp Require Import gmap list.

(** ** Data *)

(** [const FatalErrorHandlerInterface*]: the address of a handler object.
    Two entries of the list are equal when the addresses are. *)
Definition HandlerPtr := N.

(** A non-null [FailureFunctionList*]; [nullptr] is [None] in the slot. *)
Definition ListPtr := positive.

(** [std::ostream&]: the identity of the output sink handed to handlers. *)
Definition Ostream := N.

(** [using FailureFunctionList = std::list<const FatalErrorHandlerInterface*>] *)
Abbreviation FailureFunctionList := (list HandlerPtr).

(** One call [handler->onFatalError(os)]. *)
Record Call := OnFatalError { callee : HandlerPtr; sink : Ostream }.

#[global] Instance Call_eq_dec : EqDecision Call.
Proof. solve_decision. Defined.

Record State := mkState {
  (** [std::atomic<FailureFunctionList*> fatal_error_handlers] *)
  fatal_error_handlers : option ListPtr;
  (** the lists currently allocated *)
  heap : gmap ListPtr FailureFunctionList;
  (** the [onFatalError] calls made so far, oldest first *)
  calls : list Call
}.

(** [ABSL_CONST_INIT ... fatal_error_handlers{nullptr}], nothing allocated,
    nothing called. *)
Definition initial_state : State := mkState None ∅ [].

(** ** The monad of the embedding

    A computation reads and updates the state; [None] is a fault (use of a
    pointer to a list that is not allocated). *)
Definition M (A : Type) : Type := State → option (A * State).

#[global] Instance M_ret : MRet M := λ A a st, Some (a, st).
#[global] Instance M_bind : MBind M := λ A B f m st,
  match m st with
  | Some (a, st') => f a st'
  | None => None
  end.

(** The state a computation ends in, when it returns. *)
Definition exec {A} (m : M A) (st : State) : option State :=
  match m st with
  | Some (_, st') => Some st'
  | None => None
  end.

(** *** The atomic slot *)

(** [fatal_error_handlers.exchange(v, ...)] *)
Definition atomic_exchange (v : option ListPtr) : M (option ListPtr) :=
  λ st, Some (fatal_error_handlers st, mkState v (heap st) (calls st)).

(** [fatal_error_handlers.store(v, ...)] *)
Definition atomic_store (v : option ListPtr) : M unit :=
  λ st, Some (tt, mkState v (heap st) (calls st)).

(** *** [std::list] *)

(** [std::list::remove(value)]: erases every element equal to [value] and
    keeps the others in order. *)
Fixpoint list_remove (value : HandlerPtr) (l : FailureFunctionList)
  : FailureFunctionList :=
  match l with
  | [] => []
  | x :: l' =>
      if decide (x = value) then list_remove value l'
      else x :: list_remove value l'
  end.

(** [std::list::empty()] *)
Definition list_empty (l : FailureFunctionList) : bool :=
  match l with
  | [] => true
  | _ :: _ => false
  end.

(** *** Lists on the heap *)

(** [new FailureFunctionList]: an empty list at an address not in use. *)
Definition new_FailureFunctionList : M ListPtr :=
  λ st, let p := fresh (dom (heap st)) in
        Some (p, mkState (fatal_error_handlers st) (<[p := []]> (heap st)) (calls st)).

(** Reading [*list]. *)
Definition deref (list : ListPtr) : M FailureFunctionList :=
  λ st, match heap st !! list with
        | Some l => Some (l, st)
        | None => None
        end.

(** Updating [*list] in place. *)
Definition update (list : ListPtr) (f : FailureFunctionList → FailureFunctionList)
  : M unit :=
  λ st, match heap st !! list with
        | Some l =>
            Some (tt, mkState (fatal_error_handlers st) (<[list := f l]> (heap st)) (calls st))
        | None => None
        end.

(** [list->push_back(&handler)] *)
Definition push_back (list : ListPtr) (handler : HandlerPtr) : M unit :=
  update list (λ l, l ++ [handler]).

(** [list->remove(&handler)] *)
Definition remove (list : ListPtr) (handler : HandlerPtr) : M unit :=
  update list (list_remove handler).

(** [list->empty()] *)
Definition empty (list : ListPtr) : M bool :=
  l ← deref list; mret (list_empty l).

(** [delete list] *)
Definition delete_list (list : ListPtr) : M unit :=
  λ st, match heap st !! list with
        | Some _ =>
            Some (tt, mkState (fatal_error_handlers st) (delete list (heap st)) (calls st))
        | None => None
        end.

(** *** Handlers *)

(** [handler->onFatalError(os)]: the call is recorded. *)
Definition onFatalError (handler : HandlerPtr) (os : Ostream) : M unit :=
  λ st, Some (tt, mkState (fatal_error_handlers st) (heap st)
                          (calls st ++ [OnFatalError handler os])).

(** [for (const auto* handler : l) body(handler)] *)
Fixpoint for_each (l : FailureFunctionList) (body : HandlerPtr → M unit) : M unit :=
  match l with
  | [] => mret tt
  | handler :: l' => body handler;; for_each l' body
  end.

(** ** The entry points

    The first argument is the build flag: [true] when
    [ENVOY_OBJECT_TRACE_ON_DUMP] is defined. *)

Definition registerFatalErrorHandler (ENVOY_OBJECT_TRACE_ON_DUMP : bool)
    (handler : HandlerPtr) : M unit :=
  if ENVOY_OBJECT_TRACE_ON_DUMP then
    list ← atomic_exchange None;
    list ← match list with
           | None => new_FailureFunctionList
           | Some p => mret p
           end;
    push_back list handler;;
    atomic_store (Some list)
  else
    mret tt.

Definition removeFatalErrorHandler (ENVOY_OBJECT_TRACE_ON_DUMP : bool)
    (handler : HandlerPtr) : M unit :=
  if ENVOY_OBJECT_TRACE_ON_DUMP then
    list ← atomic_exchange None;
    match list with
    | None => mret tt
    | Some list =>
        remove list handler;;
        is_empty ← empty list;
        if is_empty : bool then delete_list list
        else atomic_store (Some list)
    end
  else
    mret tt.

Definition callFatalErrorHandlers (os : Ostream) : M unit :=
  list ← atomic_exchange None;
  match list with
  | Some list =>
      l ← deref list;
      for_each l (λ handler, onFatalError handler os);;
      delete_list list
  | None => mret tt
  end.

(** ** Sequences of calls *)

Inductive Op :=
  | Register (handler : HandlerPtr)
  | Unregister (handler : HandlerPtr)
  | Invoke (os : Ostream).

Definition step (flag : bool) (op : Op) : M unit :=
  match op with
  | Register handler => registerFatalErrorHandler flag handler
  | Unregister handler => removeFatalErrorHandler flag handler
  | Invoke os => callFatalErrorHandlers os
  end.

Fixpoint run (flag : bool) (ops : list Op) : M unit :=
  match ops with
  | [] => mret tt
  | op :: ops' => step flag op;; run flag ops'
  end.

(** The states of a build with the given flag: those some sequence of calls
    leads to from the initial state. *)
Definition reachable (flag : bool) (st : State) : Prop :=
  ∃ ops, exec (run flag ops) initial_state = Some st.

(** ** Views of the state *)

(** The registered handler sequence: the list the slot points to, or no
    handler when the slot is null. *)
Definition handlers (st : State) : FailureFunctionList :=
  match fatal_error_handlers st with
  | Some p => default [] (heap st !! p)
  | None => []
  end.

(** A non-null slot points to an allocated list. *)
Definition slot_valid (st : State) : Prop :=
  match fatal_error_handlers st with
  | Some p => is_Some (heap st !! p)
  | None => True
  end.

(** The slot is null or points to an allocated list with an element. *)
Definition slot_empty_or_populated (st : State) : Prop :=
  match fatal_error_handlers st with
  | Some p => ∃ l, heap st !! p = Some l ∧ l ≠ []
  | None => True
  end.

(** The calls made between an earlier state and a later one. *)
Definition new_calls (before after : State) : list Call :=
  drop (length (calls before)) (calls after).

(** How many of the calls went to [handler]. *)
Definition times_called (handler : HandlerPtr) (cs : list Call) : nat :=
  length (filter (λ c, callee c = handler) cs).

(** How many entries of a list are [handler]. *)
Definition occurrences (handler : HandlerPtr) (l : FailureFunctionList) : nat :=
  length (filter (λ x, x = handler) l).

(** States used to instantiate the theorems below. *)
Definition populated_example : State :=
  mkState (Some 2%positive) {[ 2%positive := [11; 12; 11; 13]%N ]}
          [OnFatalError 9%N 0%N].

Definition drained_example : State :=
  mkState None ∅ [OnFatalError 11%N 1%N; OnFatalError 12%N 1%N].

Definition single_example : State :=
  mkState (Some 3%positive) {[ 3%positive := [21; 21]%N ]} [].

(** ** Further views *)

#[global] Instance Op_eq_dec : EqDecision Op.
Proof. solve_decision. Defined.

(** How many operations of a sequence are registrations of [handler]. *)
Definition registrations (handler : HandlerPtr) (ops : list Op) : nat :=
  length (filter (λ op, op = Register handler) ops).

(** The heap holds the list the slot points to and nothing else. *)
Definition heap_owned (st : State) : Prop :=
  match fatal_error_handlers st with
  | Some p => ∃ l, heap st = {[ p := l ]}
  | None => heap st = ∅
  end.

(** ** A fatal signal in the middle of an entry point

    [callFatalErrorHandlers] is what the signal handler of the process runs,
    and a signal can be delivered to a thread that is inside one of the
    entry points.  The entry points are given again with the places between
    their statements numbered; [signal k] is what runs at place [k] on the
    interrupted thread before the next statement.  Place 0 is before the
    exchange; the lock is not touched by [callFatalErrorHandlers], so the
    places before and after taking it are one.  A place is numbered where
    the state can differ from the one at the place before: after the
    exchange, after the list is chosen or allocated, after the list is
    changed, and after the store or the delete. *)
Definition Signal : Type := nat → M unit.

(** No signal is delivered. *)
Definition no_signal : Signal := λ _, mret tt.

(** One fatal signal, delivered at place [k]; its handler calls
    [callFatalErrorHandlers os] and returns. *)
Definition fatal_signal_at (k : nat) (os : Ostream) : Signal :=
  λ place, if Nat.eqb place k then callFatalErrorHandlers os else mret tt.

Definition registerFatalErrorHandler_signalled (signal : Signal)
    (ENVOY_OBJECT_TRACE_ON_DUMP : bool) (handler : HandlerPtr) : M unit :=
  if ENVOY_OBJECT_TRACE_ON_DUMP then
    signal 0;;
    list ← atomic_exchange None;
    signal 1;;
    list ← match list with
           | None => new_FailureFunctionList
           | Some p => mret p
           end;
    signal 2;;
    push_back list handler;;
    signal 3;;
    atomic_store (Some list);;
    signal 4
  else
    signal 0.

Definition removeFatalErrorHandler_signalled (signal : Signal)
    (ENVOY_OBJECT_TRACE_ON_DUMP : bool) (handler : HandlerPtr) : M unit :=
  if ENVOY_OBJECT_TRACE_ON_DUMP then
    signal 0;;
    list ← atomic_exchange None;
    signal 1;;
    match list with
    | None => mret tt
    | Some list =>
        remove list handler;;
        signal 2;;
        is_empty ← empty list;
        (if is_empty : bool then delete_list list
         else atomic_store (Some list));;
        signal 3
    end
  else
    signal 0.

(** The loop of [callFatalErrorHandlers], with a place after each call of a
    handler, numbered from [k]. *)
Fixpoint for_each_signalled (signal : Signal) (k : nat)
    (l : FailureFunctionList) (body : HandlerPtr → M unit) : M unit :=
  match l with
  | [] => mret tt
  | handler :: l' =>
      body handler;; signal k;; for_each_signalled signal (S k) l' body
  end.

Definition callFatalErrorHandlers_signalled (signal : Signal) (os : Ostream)
  : M unit :=
  signal 0;;
  list ← atomic_exchange None;
  signal 1;;
  match list with
  | Some list =>
      l ← deref list;
      for_each_signalled signal 2 l (λ handler, onFatalError handler os);;
      delete_list list;;
      signal (2 + length l)
  | None => mret tt
  end.

(** The sequential execution a signal at place [k] of an entry point with
    [last] as its final place amounts to: the invocation first when the
    signal comes before the exchange, the invocation last when it comes
    after the final statement, and no invocation in between or when no
    signal comes. *)
Definition signal_outcome (k last : nat) (os : Ostream) (op : Op) : list Op :=
  if Nat.eqb k 0 then [Invoke os; op]
  else if Nat.eqb k last then [op; Invoke os]
  else [op].

(** ** Basic facts *)

Lemma exec_bind {A B} (m : M A) (k : A → M B) (st : State) :
  exec (m ≫= k) st =
  match m st with
  | Some (a, st') => exec (k a) st'
  | None => None
  end.
Proof. unfold exec, mbind, M_bind. by destruct (m st) as [[a st']|]. Qed.

Lemma exec_ret {A} (a : A) (st : State) : exec (mret a) st = Some st.
Proof. done. Qed.

Lemma list_remove_filter (h : HandlerPtr) (l : FailureFunctionList) :
  list_remove h l = filter (λ x, x ≠ h) l.
Proof.
  induction l as [|x l IH]; [done|]. cbn [list_remove].
  destruct (decide (x = h)) as [->|Hne].
  - by rewrite filter_cons_False; [|intros ?].
  - by rewrite filter_cons_True, IH.
Qed.

Lemma list_remove_absent (h : HandlerPtr) (l : FailureFunctionList) :
  h ∉ l → list_remove h l = l.
Proof.
  induction l as [|x l IH]; [done|]. intros [Hx Hl]%not_elem_of_cons.
  cbn [list_remove]. rewrite decide_False by done. by rewrite IH.
Qed.

Lemma list_remove_app (h : HandlerPtr) (l1 l2 : FailureFunctionList) :
  list_remove h (l1 ++ l2) = list_remove h l1 ++ list_remove h l2.
Proof. by rewrite !list_remove_filter, filter_app. Qed.

Lemma list_remove_self (h : HandlerPtr) : list_remove h [h] = [].
Proof. cbn. by rewrite decide_True. Qed.

Lemma list_remove_all_equal (h : HandlerPtr) (l : FailureFunctionList) :
  Forall (λ x, x = h) l → list_remove h l = [].
Proof.
  induction 1 as [|x l -> _ IH]; [done|].
  cbn [list_remove]. by rewrite decide_True.
Qed.

Lemma for_each_onFatalError (os : Ostream) (l : FailureFunctionList) (st : State) :
  for_each l (λ handler, onFatalError handler os) st =
  Some (tt, mkState (fatal_error_handlers st) (heap st)
                    (calls st ++ map (λ handler, OnFatalError handler os) l)).
Proof.
  revert st. induction l as [|h l IH]; intros [slot hp cs]; cbn.
  - by rewrite app_nil_r.
  - unfold mbind, M_bind. cbn. rewrite IH. cbn. by rewrite <- app_assoc.
Qed.

(** *** What each entry point does to the state *)

Lemma register_null (h : HandlerPtr) (st : State) :
  fatal_error_handlers st = None →
  registerFatalErrorHandler true h st =
  Some (tt, let p := fresh (dom (heap st)) in
            mkState (Some p) (<[p := [h]]> (heap st)) (calls st)).
Proof.
  destruct st as [slot hp cs]; cbn. intros ->.
  unfold registerFatalErrorHandler, mbind, M_bind; cbn.
  unfold push_back, update; cbn. rewrite lookup_insert_eq. cbn.
  by rewrite insert_insert_eq.
Qed.

Lemma register_populated (h : HandlerPtr) (st : State) (p : ListPtr)
    (l : FailureFunctionList) :
  fatal_error_handlers st = Some p → heap st !! p = Some l →
  registerFatalErrorHandler true h st =
  Some (tt, mkState (Some p) (<[p := l ++ [h]]> (heap st)) (calls st)).
Proof.
  destruct st as [slot hp cs]; cbn. intros -> Hl.
  unfold registerFatalErrorHandler, mbind, M_bind; cbn.
  unfold push_back, update; cbn. by rewrite Hl.
Qed.

Lemma remove_null (flag : bool) (h : HandlerPtr) (st : State) :
  fatal_error_handlers st = None →
  removeFatalErrorHandler flag h st = Some (tt, st).
Proof.
  destruct st as [slot hp cs]; cbn. intros ->. by destruct flag.
Qed.

Lemma remove_populated (h : HandlerPtr) (st : State) (p : ListPtr)
    (l : FailureFunctionList) :
  fatal_error_handlers st = Some p → heap st !! p = Some l →
  removeFatalErrorHandler true h st =
  Some (tt, if list_empty (list_remove h l)
            then mkState None (delete p (heap st)) (calls st)
            else mkState (Some p) (<[p := list_remove h l]> (heap st)) (calls st)).
Proof.
  destruct st as [slot hp cs]; cbn. intros -> Hl.
  unfold removeFatalErrorHandler, mbind, M_bind; cbn.
  unfold remove, update; cbn. rewrite Hl. cbn.
  unfold empty, deref, mbind, M_bind; cbn. rewrite lookup_insert_eq. cbn.
  destruct (list_empty (list_remove h l)); cbn.
  - unfold delete_list; cbn. rewrite lookup_insert_eq.
    by rewrite delete_insert_eq.
  - done.
Qed.

Lemma call_null (os : Ostream) (st : State) :
  fatal_error_handlers st = None →
  callFatalErrorHandlers os st = Some (tt, st).
Proof. destruct st as [slot hp cs]; cbn. by intros ->. Qed.

Lemma call_populated (os : Ostream) (st : State) (p : ListPtr)
    (l : FailureFunctionList) :
  fatal_error_handlers st = Some p → heap st !! p = Some l →
  callFatalErrorHandlers os st =
  Some (tt, mkState None (delete p (heap st))
                    (calls st ++ map (λ handler, OnFatalError handler os) l)).
Proof.
  destruct st as [slot hp cs]; cbn. intros -> Hl.
  unfold callFatalErrorHandlers, mbind, M_bind; cbn.
  unfold deref; cbn. rewrite Hl.
  rewrite for_each_onFatalError. cbn.
  unfold delete_list; cbn. by rewrite Hl.
Qed.

(** *** The entry points on the handler sequence *)

Lemma slot_populated_valid (st : State) : slot_empty_or_populated st → slot_valid st.
Proof.
  unfold slot_empty_or_populated, slot_valid.
  destruct (fatal_error_handlers st) as [p|]; [|done].
  intros (hs & Hhs & _). by exists hs.
Qed.

Lemma register_spec (h : HandlerPtr) (st : State) :
  slot_valid st →
  ∃ st', exec (registerFatalErrorHandler true h) st = Some st' ∧
         slot_empty_or_populated st' ∧
         handlers st' = handlers st ++ [h] ∧
         calls st' = calls st.
Proof.
  unfold slot_valid, handlers, exec. intros Hv.
  destruct (fatal_error_handlers st) as [p|] eqn:Hslot.
  - destruct Hv as [l Hl]. rewrite (register_populated h st p l) by done.
    eexists; split; [done|]. unfold slot_empty_or_populated; cbn.
    rewrite lookup_insert_eq, Hl. cbn. split_and!; [|done..].
    exists (l ++ [h]). split; [done|]. by destruct l.
  - rewrite register_null by done.
    eexists; split; [done|]. unfold slot_empty_or_populated; cbn.
    rewrite lookup_insert_eq. split_and!; [|done..]. by exists [h].
Qed.

Lemma remove_spec (h : HandlerPtr) (st : State) :
  slot_valid st →
  ∃ st', exec (removeFatalErrorHandler true h) st = Some st' ∧
         slot_empty_or_populated st' ∧
         handlers st' = list_remove h (handlers st) ∧
         calls st' = calls st.
Proof.
  unfold slot_valid, handlers, exec. intros Hv.
  destruct (fatal_error_handlers st) as [p|] eqn:Hslot.
  - destruct Hv as [l Hl]. rewrite (remove_populated h st p l) by done.
    rewrite Hl. cbn. unfold slot_empty_or_populated.
    destruct (list_remove h l) as [|x r] eqn:Hrm; cbn.
    + by eexists.
    + eexists; split; [done|]. cbn. rewrite lookup_insert_eq.
      split_and!; [|done..]. by eexists.
  - rewrite remove_null by done. exists st. unfold slot_empty_or_populated.
    by rewrite Hslot.
Qed.

Lemma call_spec (os : Ostream) (st : State) :
  slot_valid st →
  ∃ st', exec (callFatalErrorHandlers os) st = Some st' ∧
         fatal_error_handlers st' = None ∧
         calls st' = calls st ++ map (λ handler, OnFatalError handler os) (handlers st).
Proof.
  unfold slot_valid, handlers, exec. intros Hv.
  destruct (fatal_error_handlers st) as [p|] eqn:Hslot.
  - destruct Hv as [l Hl]. rewrite (call_populated os st p l) by done.
    rewrite Hl. by eexists.
  - rewrite call_null by done. exists st. by rewrite app_nil_r.
Qed.

Lemma new_calls_app (st st' : State) (cs : list Call) :
  calls st' = calls st ++ cs → new_calls st st' = cs.
Proof. unfold new_calls. intros ->. by rewrite drop_app_length. Qed.

Lemma times_called_map (h : HandlerPtr) (os : Ostream) (l : FailureFunctionList) :
  times_called h (map (λ handler, OnFatalError handler os) l) = occurrences h l.
Proof.
  unfold times_called, occurrences.
  induction l as [|x l IH]; [done|]. cbn [map].
  destruct (decide (x = h)) as [->|Hne].
  - rewrite !filter_cons_True by done. cbn. by rewrite IH.
  - by rewrite !filter_cons_False.
Qed.

Lemma occurrences_app (h : HandlerPtr) (l1 l2 : FailureFunctionList) :
  occurrences h (l1 ++ l2) = occurrences h l1 + occurrences h l2.
Proof. unfold occurrences. by rewrite filter_app, length_app. Qed.

Lemma occurrences_absent (h : HandlerPtr) (l : FailureFunctionList) :
  h ∉ l → occurrences h l = 0.
Proof.
  unfold occurrences. induction l as [|x l IH]; [done|].
  intros [Hx Hl]%not_elem_of_cons. rewrite filter_cons_False by done. auto.
Qed.

Lemma occurrences_NoDup (h : HandlerPtr) (l : FailureFunctionList) :
  NoDup l → h ∈ l → occurrences h l = 1.
Proof.
  induction 1 as [|x l Hx Hnd IH]; [by intros ?%elem_of_nil|].
  change (x :: l) with ([x] ++ l). rewrite occurrences_app.
  intros [->|Hin]%elem_of_cons.
  - rewrite (occurrences_absent x l) by done.
    unfold occurrences. by rewrite filter_cons_True.
  - rewrite IH by done. unfold occurrences.
    rewrite filter_cons_False; [done|]. intros ->. done.
Qed.

Lemma occurrences_list_remove (h : HandlerPtr) (l : FailureFunctionList) :
  occurrences h (list_remove h l) = 0.
Proof.
  apply occurrences_absent. rewrite list_remove_filter.
  intros [Hne _]%list_elem_of_filter. done.
Qed.

(** Registering a run of handlers appends them, in order. *)
Lemma run_registers (hs : list HandlerPtr) (st : State) :
  slot_valid st →
  ∃ st', exec (run true (map Register hs)) st = Some st' ∧
         slot_valid st' ∧
         handlers st' = handlers st ++ hs ∧
         calls st' = calls st.
Proof.
  revert st. induction hs as [|h hs IH]; intros st Hv.
  - exists st. by rewrite app_nil_r.
  - destruct (register_spec h st Hv) as (st1 & Hex & Hv1%slot_populated_valid & Hh & Hc).
    destruct (IH st1 Hv1) as (st2 & Hex2 & Hv2 & Hh2 & Hc2).
    exists st2. cbn [map run step]. rewrite exec_bind.
    unfold exec in Hex. destruct (registerFatalErrorHandler true h st) as [[[] s]|]; [|done].
    injection Hex as ->. split_and!; [done..| |congruence].
    by rewrite Hh2, Hh, <- app_assoc.
Qed.

Lemma run_app (flag : bool) (ops1 ops2 : list Op) (st : State) :
  exec (run flag (ops1 ++ ops2)) st =
  match exec (run flag ops1) st with
  | Some st' => exec (run flag ops2) st'
  | None => None
  end.
Proof.
  revert st. induction ops1 as [|op ops1 IH]; intros st; [done|].
  cbn [app run]. rewrite !exec_bind. by destruct (step flag op st) as [[[] s]|].
Qed.

Lemma run_single (flag : bool) (op : Op) (st : State) :
  exec (run flag [op]) st = exec (step flag op) st.
Proof.
  cbn [run]. rewrite exec_bind. unfold exec.
  by destruct (step flag op st) as [[[] s]|].
Qed.

Lemma new_calls_same (st : State) : new_calls st st = [].
Proof. unfold new_calls. by rewrite drop_all. Qed.

Lemma fresh_unallocated (hp : gmap ListPtr FailureFunctionList) :
  hp !! fresh (dom hp) = None.
Proof. apply not_elem_of_dom, is_fresh. Qed.

(** Unregistering on a null slot, any number of times, changes nothing. *)
Lemma run_unregisters_null (flag : bool) (rs : list HandlerPtr) (st : State) :
  fatal_error_handlers st = None →
  exec (run flag (map Unregister rs)) st = Some st.
Proof.
  intros Hnull. induction rs as [|r rs IH]; [done|].
  cbn [map run step]. rewrite exec_bind. by rewrite remove_null.
Qed.

(** * The registry's properties *)

(** ** Registration order is invocation order *)

(** C1: for handlers h1..hn that are pairwise distinct, registered in that
    order on a registry holding no handler, with nothing else in between
    (in a build that compiles registration in), one invocation with output
    sink [os] returns and makes exactly the calls h1->onFatalError(os), ...,
    hn->onFatalError(os), in that order: each handler is called once, and
    with the sink given. *)
Theorem invoke_calls_in_registration_order
    (hs : list HandlerPtr) (os : Ostream) (st : State) :
  slot_valid st → handlers st = [] → NoDup hs →
  ∃ st', exec (run true (map Register hs ++ [Invoke os])) st = Some st' ∧
         new_calls st st' = map (λ h, OnFatalError h os) hs ∧
         ∀ h, h ∈ hs → times_called h (new_calls st st') = 1.
Proof.
  intros Hv Hnil Hnd.
  destruct (run_registers hs st Hv) as (st1 & Hex1 & Hv1 & Hh1 & Hc1).
  destruct (call_spec os st1 Hv1) as (st2 & Hex2 & _ & Hc2).
  exists st2. rewrite run_app, Hex1, run_single. cbn [step].
  rewrite Hh1, Hnil, Hc1 in Hc2. cbn [app] in Hc2.
  rewrite (new_calls_app _ _ _ Hc2). split_and!; [done..|].
  intros h Hin. rewrite times_called_map. by apply occurrences_NoDup.
Qed.

Lemma invoke_calls_in_registration_order_witness :
  slot_valid initial_state ∧ handlers initial_state = [] ∧ NoDup [4; 2; 7]%N ∧
  ∃ st', exec (run true (map Register [4; 2; 7]%N ++ [Invoke 1%N])) initial_state
           = Some st' ∧
         new_calls initial_state st'
           = [OnFatalError 4%N 1%N; OnFatalError 2%N 1%N; OnFatalError 7%N 1%N] ∧
         ∀ h, h ∈ [4; 2; 7]%N → times_called h (new_calls initial_state st') = 1.
Proof.
  assert (Hnd : NoDup [4; 2; 7]%N) by compute_done.
  split_and!; [done..|].
  exact (invoke_calls_in_registration_order [4; 2; 7]%N 1%N initial_state I eq_refl Hnd).
Defined.

(** ** Invocation is one-shot *)

(** C2: from every state, a first invocation returns; if no registration
    happens after it (any number of unregistrations may), a second
    invocation returns having called no handler, whatever was registered
    before the first one.  This holds in both builds. *)
Theorem second_invocation_calls_nothing
    (flag : bool) (st : State) (os1 os2 : Ostream) (rs : list HandlerPtr) :
  slot_valid st →
  ∃ st1 st2, exec (callFatalErrorHandlers os1) st = Some st1 ∧
             exec (run flag (map Unregister rs ++ [Invoke os2])) st1 = Some st2 ∧
             new_calls st1 st2 = [] ∧
             handlers st2 = [].
Proof.
  intros Hv. destruct (call_spec os1 st Hv) as (st1 & Hex1 & Hnull & _).
  exists st1, st1. split; [done|].
  rewrite run_app, run_unregisters_null, run_single by done. cbn [step].
  unfold exec at 1. rewrite call_null by done.
  split_and!; [done|apply new_calls_same|].
  unfold handlers. by rewrite Hnull.
Qed.

Lemma second_invocation_calls_nothing_witness :
  slot_valid populated_example ∧
  ∃ st1 st2, exec (callFatalErrorHandlers 1%N) populated_example = Some st1 ∧
             exec (run true (map Unregister [12%N] ++ [Invoke 2%N])) st1 = Some st2 ∧
             new_calls st1 st2 = [] ∧
             handlers st2 = [].
Proof.
  assert (Hv : slot_valid populated_example) by (by eexists).
  split; [done|].
  exact (second_invocation_calls_nothing true populated_example 1%N 2%N [12%N] Hv).
Defined.

(** ** Registering one handler twice *)

(** C3, as amended: for every handler h not yet registered, registering h
    twice (in a build that compiles registration in) makes a following
    invocation call h twice; unregistering h once after registering it
    twice removes both entries, no entry for h stays registered, and a
    following invocation does not call h. *)
Theorem register_twice_unregister_once
    (h : HandlerPtr) (os : Ostream) (st : State) :
  slot_valid st →
  (h ∉ handlers st →
   ∃ st1 st2, exec (run true [Register h; Register h]) st = Some st1 ∧
              occurrences h (handlers st1) = 2 ∧
              exec (callFatalErrorHandlers os) st1 = Some st2 ∧
              times_called h (new_calls st1 st2) = 2) ∧
  (∃ st1 st2, exec (run true [Register h; Register h; Unregister h]) st = Some st1 ∧
              occurrences h (handlers st1) = 0 ∧
              exec (callFatalErrorHandlers os) st1 = Some st2 ∧
              times_called h (new_calls st1 st2) = 0).
Proof.
  intros Hv.
  destruct (run_registers [h; h] st Hv) as (st1 & Hex1 & Hv1 & Hh1 & Hc1).
  cbn [map] in Hex1. split.
  - intros Habs.
    destruct (call_spec os st1 Hv1) as (st2 & Hex2 & _ & Hc2).
    exists st1, st2. rewrite (new_calls_app _ _ _ Hc2), times_called_map, Hh1.
    rewrite occurrences_app, (occurrences_absent h (handlers st)) by done.
    split_and!; [done| |done|]; unfold occurrences;
      by rewrite !filter_cons_True.
  - destruct (remove_spec h st1 Hv1) as (st2 & Hex2 & Hv2%slot_populated_valid & Hh2 & _).
    destruct (call_spec os st2 Hv2) as (st3 & Hex3 & _ & Hc3).
    exists st2, st3.
    change [Register h; Register h; Unregister h]
      with ([Register h; Register h] ++ [Unregister h]).
    rewrite run_app, Hex1, run_single. cbn [step].
    rewrite (new_calls_app _ _ _ Hc3), times_called_map, Hh2.
    by rewrite occurrences_list_remove.
Qed.

Lemma register_twice_unregister_once_witness :
  slot_valid initial_state ∧ (5%N ∉ handlers initial_state) ∧
  (∃ st1 st2, exec (run true [Register 5%N; Register 5%N]) initial_state = Some st1 ∧
              occurrences 5%N (handlers st1) = 2 ∧
              exec (callFatalErrorHandlers 1%N) st1 = Some st2 ∧
              times_called 5%N (new_calls st1 st2) = 2) ∧
  (∃ st1 st2, exec (run true [Register 5%N; Register 5%N; Unregister 5%N])
                   initial_state = Some st1 ∧
              occurrences 5%N (handlers st1) = 0 ∧
              exec (callFatalErrorHandlers 1%N) st1 = Some st2 ∧
              times_called 5%N (new_calls st1 st2) = 0).
Proof.
  assert (Habs : 5%N ∉ handlers initial_state) by (cbn; apply not_elem_of_nil).
  split; [exact I|]. split; [exact Habs|].
  destruct (register_twice_unregister_once 5%N 1%N initial_state I) as [H2 H0].
  split; [exact (H2 Habs)|exact H0].
Defined.

(** C3, as the specification words it, fails: after registering handler 5
    twice and unregistering it once on a fresh registry, neither is one
    entry for 5 left registered, nor does an invocation call 5 once. *)
Lemma unregister_once_leaves_one_counterexample :
  ¬ ∃ st1,
      exec (run true [Register 5%N; Register 5%N; Unregister 5%N]) initial_state
        = Some st1 ∧
      (occurrences 5%N (handlers st1) = 1 ∨
       ∃ st2, exec (callFatalErrorHandlers 1%N) st1 = Some st2 ∧
              times_called 5%N (new_calls st1 st2) = 1).
Proof.
  intros (st1 & Hex1 & Hone).
  vm_compute in Hex1. injection Hex1 as <-.
  destruct Hone as [Hocc|(st2 & Hex2 & Hcalled)].
  - vm_compute in Hocc. discriminate.
  - vm_compute in Hex2. injection Hex2 as <-.
    vm_compute in Hcalled. discriminate.
Qed.

(** ** Unregistering *)

(** C4: for every registered sequence and every handler h, unregistering h
    (in a build that compiles removal in) returns and leaves the sequence
    without any entry equal to h, the other entries staying in their
    original relative order: the new sequence is the old one filtered by
    "differs from h". *)
Theorem unregister_removes_all_equal (h : HandlerPtr) (st : State) :
  slot_valid st →
  ∃ st', exec (removeFatalErrorHandler true h) st = Some st' ∧
         handlers st' = filter (λ x, x ≠ h) (handlers st) ∧
         (h ∉ handlers st') ∧
         handlers st' `sublist_of` handlers st.
Proof.
  intros Hv. destruct (remove_spec h st Hv) as (st' & Hex & _ & Hh & _).
  exists st'. rewrite Hh, list_remove_filter. split_and!; [done..| |].
  - intros [Hne _]%list_elem_of_filter. done.
  - apply sublist_filter.
Qed.

Lemma unregister_removes_all_equal_witness :
  slot_valid populated_example ∧
  ∃ st', exec (removeFatalErrorHandler true 11%N) populated_example = Some st' ∧
         handlers st' = filter (λ x, x ≠ 11%N) (handlers populated_example) ∧
         (11%N ∉ handlers st') ∧
         handlers st' `sublist_of` handlers populated_example.
Proof.
  assert (Hv : slot_valid populated_example) by (by eexists).
  split; [exact Hv|].
  exact (unregister_removes_all_equal 11%N populated_example Hv).
Defined.

(** C5: for every handler h, unregistering h while the slot is null returns
    normally and leaves the whole state as it was, the slot still null.
    This holds in both builds. *)
Theorem unregister_on_null_slot_is_noop
    (flag : bool) (h : HandlerPtr) (st : State) :
  fatal_error_handlers st = None →
  removeFatalErrorHandler flag h st = Some (tt, st) ∧
  ∀ st', exec (removeFatalErrorHandler flag h) st = Some st' →
         fatal_error_handlers st' = None.
Proof.
  intros Hnull. split; [by apply remove_null|].
  unfold exec. rewrite remove_null by done. by intros st' [= <-].
Qed.

Lemma unregister_on_null_slot_is_noop_witness :
  fatal_error_handlers drained_example = None ∧
  removeFatalErrorHandler true 11%N drained_example = Some (tt, drained_example) ∧
  ∀ st', exec (removeFatalErrorHandler true 11%N) drained_example = Some st' →
         fatal_error_handlers st' = None.
Proof.
  split; [reflexivity|].
  exact (unregister_on_null_slot_is_noop true 11%N drained_example eq_refl).
Defined.

(** ** Registering *)

(** C6: for every state and handler h, registering h (in a build that
    compiles registration in) returns and the handler sequence becomes the
    old one followed by h.  A list already in the slot is extended in place;
    when the slot is null a list is allocated first, at an address not in
    use, and the sequence afterwards is the one-element [h]. *)
Theorem register_appends_at_end (h : HandlerPtr) (st : State) :
  slot_valid st →
  ∃ st', exec (registerFatalErrorHandler true h) st = Some st' ∧
         handlers st' = handlers st ++ [h] ∧
         match fatal_error_handlers st with
         | Some p => fatal_error_handlers st' = Some p
         | None =>
             ∃ p, heap st !! p = None ∧
                  fatal_error_handlers st' = Some p ∧
                  heap st' = <[p := [h]]> (heap st) ∧
                  handlers st' = [h]
         end.
Proof.
  intros Hv. destruct (register_spec h st Hv) as (st' & Hex & _ & Hh & _).
  exists st'. split_and!; [done..|].
  unfold slot_valid in Hv. unfold exec in Hex.
  destruct (fatal_error_handlers st) as [p|] eqn:Hslot.
  - destruct Hv as [l Hl].
    rewrite (register_populated h st p l) in Hex by done. by injection Hex as <-.
  - rewrite register_null in Hex by done. injection Hex as <-.
    exists (fresh (dom (heap st))). cbn.
    split_and!; [apply fresh_unallocated|done..|].
    unfold handlers; cbn. by rewrite lookup_insert_eq.
Qed.

Lemma register_appends_at_end_witness :
  slot_valid initial_state ∧
  ∃ st', exec (registerFatalErrorHandler true 8%N) initial_state = Some st' ∧
         handlers st' = handlers initial_state ++ [8%N] ∧
         ∃ p, heap initial_state !! p = None ∧
              fatal_error_handlers st' = Some p ∧
              heap st' = <[p := [8%N]]> (heap initial_state) ∧
              handlers st' = [8%N].
Proof.
  split; [exact I|].
  exact (register_appends_at_end 8%N initial_state I).
Defined.

(** ** The slot is null or holds a populated list *)

Lemma step_invariant (flag : bool) (op : Op) (st : State) :
  slot_empty_or_populated st →
  ∃ st', exec (step flag op) st = Some st' ∧ slot_empty_or_populated st'.
Proof.
  intros Hinv. pose proof (slot_populated_valid st Hinv) as Hv.
  destruct op as [h|h|os]; cbn [step].
  - destruct flag; [|by exists st].
    destruct (register_spec h st Hv) as (st' & Hex & Hinv' & _). by exists st'.
  - destruct flag; [|by exists st].
    destruct (remove_spec h st Hv) as (st' & Hex & Hinv' & _). by exists st'.
  - destruct (call_spec os st Hv) as (st' & Hex & Hnull & _).
    exists st'. split; [done|]. unfold slot_empty_or_populated. by rewrite Hnull.
Qed.

(** C7: every operation (register, unregister, invoke, in either build),
    started with the slot null or pointing to a list that has an element,
    returns with the slot null or pointing to a list that has an element.
    When an unregister removes all that is left in the list, the list is
    deleted and the slot is left null: no pointer to an empty list is
    stored. *)
Theorem slot_null_or_populated_preserved (flag : bool) (op : Op) (st : State) :
  slot_empty_or_populated st →
  (∃ st', exec (step flag op) st = Some st' ∧ slot_empty_or_populated st') ∧
  (∀ h p l, fatal_error_handlers st = Some p → heap st !! p = Some l →
            Forall (λ x, x = h) l →
            ∃ st', exec (removeFatalErrorHandler true h) st = Some st' ∧
                   fatal_error_handlers st' = None ∧
                   heap st' = delete p (heap st) ∧
                   heap st' !! p = None).
Proof.
  intros Hinv. split.
  - destruct (step_invariant flag op st Hinv) as (st' & Hex & Hinv').
    exists st'. by split.
  - intros h p l Hslot Hl Hall. unfold exec.
    rewrite (remove_populated h st p l) by done.
    rewrite list_remove_all_equal by done. cbn.
    eexists; split_and!; [done..|]. cbn. apply lookup_delete_eq.
Qed.

Lemma slot_null_or_populated_preserved_witness :
  slot_empty_or_populated single_example ∧
  (∃ st', exec (step true (Register 22%N)) single_example = Some st' ∧
          slot_empty_or_populated st') ∧
  ∃ st', exec (removeFatalErrorHandler true 21%N) single_example = Some st' ∧
         fatal_error_handlers st' = None ∧
         heap st' = delete 3%positive (heap single_example) ∧
         heap st' !! 3%positive = None.
Proof.
  assert (Hinv : slot_empty_or_populated single_example)
    by (exists [21; 21]%N; split; [reflexivity|discriminate]).
  assert (Hall : Forall (λ x, x = 21%N) [21; 21]%N)
    by (repeat constructor).
  destruct (slot_null_or_populated_preserved true (Register 22%N) single_example Hinv)
    as [Hstep Hlast].
  split; [exact Hinv|]. split; [exact Hstep|].
  exact (Hlast 21%N 3%positive [21; 21]%N eq_refl eq_refl Hall).
Defined.

(** The slot is null initially, so every reachable state has the slot null
    or pointing to a populated list. *)
Lemma run_preserves_invariant (flag : bool) (ops : list Op) (st st' : State) :
  slot_empty_or_populated st → exec (run flag ops) st = Some st' →
  slot_empty_or_populated st'.
Proof.
  revert st. induction ops as [|op ops IH]; intros st Hinv.
  - by intros [= <-].
  - cbn [run]. rewrite exec_bind.
    destruct (step_invariant flag op st Hinv) as (st1 & Hex1 & Hinv1).
    unfold exec in Hex1. destruct (step flag op st) as [[[] s]|]; [|done].
    injection Hex1 as ->. by apply IH.
Qed.

Lemma reachable_invariant (flag : bool) (st : State) :
  reachable flag st → slot_empty_or_populated st.
Proof. intros [ops Hex]. by apply (run_preserves_invariant flag ops initial_state). Qed.

(** ** The build without [ENVOY_OBJECT_TRACE_ON_DUMP] *)

Lemma run_disabled_null (ops : list Op) (st : State) :
  fatal_error_handlers st = None → exec (run false ops) st = Some st.
Proof.
  intros Hnull. induction ops as [|op ops IH]; [done|].
  cbn [run]. rewrite exec_bind.
  destruct op as [h|h|os]; cbn [step]; [done..|].
  by rewrite call_null.
Qed.

Lemma reachable_disabled (st : State) : reachable false st → st = initial_state.
Proof.
  intros [ops Hex]. rewrite run_disabled_null in Hex by done. by injection Hex.
Qed.

(** C8: in the build without the flag, register and unregister return at
    once for every handler and leave the state as it is; and in every state
    that build can reach, the slot is null, so an invocation finds no list,
    calls no handler and leaves the state as it is. *)
Theorem disabled_build_is_inert (h : HandlerPtr) (os : Ostream) (st : State) :
  registerFatalErrorHandler false h st = Some (tt, st) ∧
  removeFatalErrorHandler false h st = Some (tt, st) ∧
  (reachable false st →
   fatal_error_handlers st = None ∧
   callFatalErrorHandlers os st = Some (tt, st) ∧
   new_calls st st = []).
Proof.
  split_and!; [done..|]. intros ->%reachable_disabled.
  split_and!; [done..|]. apply new_calls_same.
Qed.

Lemma disabled_build_is_inert_witness :
  reachable false initial_state ∧
  registerFatalErrorHandler false 6%N initial_state = Some (tt, initial_state) ∧
  removeFatalErrorHandler false 6%N initial_state = Some (tt, initial_state) ∧
  fatal_error_handlers initial_state = None ∧
  callFatalErrorHandlers 1%N initial_state = Some (tt, initial_state) ∧
  new_calls initial_state initial_state = [].
Proof.
  assert (Hr : reachable false initial_state)
    by (exists [Register 6%N; Register 7%N; Invoke 1%N]; reflexivity).
  destruct (disabled_build_is_inert 6%N 1%N initial_state) as (Hreg & Hrm & Hcall).
  split; [exact Hr|]. split; [exact Hreg|]. split; [exact Hrm|]. exact (Hcall Hr).
Defined.

Lemma reachable_valid (flag : bool) (st : State) : reachable flag st → slot_valid st.
Proof. intros Hr. by apply slot_populated_valid, (reachable_invariant flag). Qed.

(** ** Registering after an invocation *)

(** C9: an invocation that has completed does not disable the registry.
    From every state, after an invocation, registering h (in a build that
    compiles registration in) allocates a list at an address not in use,
    holding h alone, and a second invocation calls h once and calls nothing
    else. *)
Theorem register_after_invocation
    (h : HandlerPtr) (os1 os2 : Ostream) (st : State) :
  slot_valid st →
  ∃ st1 st2 st3 p,
    exec (callFatalErrorHandlers os1) st = Some st1 ∧
    exec (registerFatalErrorHandler true h) st1 = Some st2 ∧
    heap st1 !! p = None ∧
    fatal_error_handlers st2 = Some p ∧
    heap st2 !! p = Some [h] ∧
    exec (callFatalErrorHandlers os2) st2 = Some st3 ∧
    new_calls st2 st3 = [OnFatalError h os2] ∧
    times_called h (new_calls st2 st3) = 1.
Proof.
  intros Hv. destruct (call_spec os1 st Hv) as (st1 & Hex1 & Hnull & _).
  pose (p := fresh (dom (heap st1))).
  pose (st2 := mkState (Some p) (<[p := [h]]> (heap st1)) (calls st1)).
  assert (Hl2 : heap st2 !! p = Some [h]) by apply lookup_insert_eq.
  exists st1, st2, (mkState None (delete p (heap st2)) (calls st2 ++ [OnFatalError h os2])), p.
  unfold exec at 2 3. rewrite register_null by done.
  rewrite (call_populated os2 st2 p [h]) by done.
  split_and!; [done|done|apply fresh_unallocated|done|done|done| |].
  - by apply new_calls_app.
  - erewrite new_calls_app by done. unfold times_called.
    by rewrite filter_cons_True.
Qed.

Lemma register_after_invocation_witness :
  slot_valid populated_example ∧
  ∃ st1 st2 st3 p,
    exec (callFatalErrorHandlers 1%N) populated_example = Some st1 ∧
    exec (registerFatalErrorHandler true 30%N) st1 = Some st2 ∧
    heap st1 !! p = None ∧
    fatal_error_handlers st2 = Some p ∧
    heap st2 !! p = Some [30%N] ∧
    exec (callFatalErrorHandlers 2%N) st2 = Some st3 ∧
    new_calls st2 st3 = [OnFatalError 30%N 2%N] ∧
    times_called 30%N (new_calls st2 st3) = 1.
Proof.
  assert (Hv : slot_valid populated_example) by (by eexists).
  split; [exact Hv|].
  exact (register_after_invocation 30%N 1%N 2%N populated_example Hv).
Defined.

(** ** Register then unregister *)

(** C10: for every state whose handler sequence does not contain h,
    registering h and then unregistering h gives back the original handler
    sequence, and unregistering h alone leaves the sequence as it is.  When
    the slot is null or holds a populated list, as in every reachable
    state, the whole state is given back.  This holds in both builds. *)
Theorem register_unregister_round_trip (flag : bool) (h : HandlerPtr) (st : State) :
  slot_valid st → h ∉ handlers st →
  (∃ st', exec (run flag [Register h; Unregister h]) st = Some st' ∧
          handlers st' = handlers st ∧
          (slot_empty_or_populated st → st' = st)) ∧
  (∃ st', exec (removeFatalErrorHandler flag h) st = Some st' ∧
          handlers st' = handlers st ∧
          (slot_empty_or_populated st → st' = st)).
Proof.
  intros Hv Habs. destruct flag; [|split; by exists st].
  split.
  - cbn [run]. rewrite exec_bind. cbn [step].
    unfold slot_valid, handlers, slot_empty_or_populated in *.
    destruct st as [[p|] hp cs]; cbn [fatal_error_handlers heap calls] in *.
    + destruct Hv as [l Hl]. rewrite Hl in *. cbn in Habs.
      erewrite register_populated by done.
      rewrite (run_single true (Unregister h)). cbn [step]. unfold exec.
      erewrite remove_populated; [|done|apply lookup_insert_eq].
      cbn [heap calls].
      rewrite list_remove_app, list_remove_self, app_nil_r, list_remove_absent by done.
      destruct l as [|x l]; cbn [list_empty].
      * eexists; split_and!; [done..|]. by intros (? & [= <-] & ?).
      * eexists; split_and!; [done| |].
        -- cbn. by rewrite lookup_insert_eq.
        -- intros _. by rewrite insert_insert_eq, insert_id.
    + rewrite register_null by done. cbv zeta.
      rewrite (run_single true (Unregister h)). cbn [step]. unfold exec.
      erewrite remove_populated; [|done|apply lookup_insert_eq].
      cbn [heap calls]. rewrite list_remove_self. cbn [list_empty].
      eexists; split_and!; [done..|]. intros _.
      by rewrite delete_insert_eq, delete_id by apply fresh_unallocated.
  - destruct (remove_spec h st Hv) as (st' & Hex & _ & Hh & _).
    exists st'. rewrite list_remove_absent in Hh by done. split_and!; [done..|].
    unfold slot_valid, handlers, slot_empty_or_populated, exec in *.
    destruct st as [[p|] hp cs]; cbn [fatal_error_handlers heap calls] in *.
    + clear Hh. intros (l & Hl & Hne). rewrite Hl in *. cbn in Habs.
      erewrite remove_populated in Hex by done.
      rewrite list_remove_absent in Hex by done.
      destruct l; [done|]. cbn in Hex. injection Hex as <-. by rewrite insert_id.
    + intros _. rewrite remove_null in Hex by done. by injection Hex.
Qed.

Lemma register_unregister_round_trip_witness :
  slot_valid populated_example ∧ (40%N ∉ handlers populated_example) ∧
  (∃ st', exec (run true [Register 40%N; Unregister 40%N]) populated_example = Some st' ∧
          handlers st' = handlers populated_example ∧
          (slot_empty_or_populated populated_example → st' = populated_example)) ∧
  (∃ st', exec (removeFatalErrorHandler true 40%N) populated_example = Some st' ∧
          handlers st' = handlers populated_example ∧
          (slot_empty_or_populated populated_example → st' = populated_example)).
Proof.
  assert (Hv : slot_valid populated_example) by (by eexists).
  assert (Habs : 40%N ∉ handlers populated_example) by compute_done.
  split; [exact Hv|]. split; [exact Habs|].
  exact (register_unregister_round_trip true 40%N populated_example Hv Habs).
Defined.

(** * Further properties of the entry points *)

(** ** What one operation, and a sequence of them, does *)

Lemma times_called_app (h : HandlerPtr) (cs1 cs2 : list Call) :
  times_called h (cs1 ++ cs2) = times_called h cs1 + times_called h cs2.
Proof. unfold times_called. by rewrite filter_app, length_app. Qed.

Lemma occurrences_zero (h : HandlerPtr) (l : FailureFunctionList) :
  occurrences h l = 0 ↔ h ∉ l.
Proof.
  split; [|apply occurrences_absent].
  unfold occurrences. induction l as [|x l IH]; [intros _; apply not_elem_of_nil|].
  destruct (decide (x = h)) as [->|Hne].
  - by rewrite filter_cons_True.
  - rewrite filter_cons_False by done. intros Hl%IH. by apply not_elem_of_cons.
Qed.

Lemma occurrences_list_remove_le (h h' : HandlerPtr) (l : FailureFunctionList) :
  occurrences h (list_remove h' l) ≤ occurrences h l.
Proof.
  unfold occurrences. rewrite list_remove_filter. induction l as [|x l IH]; [done|].
  destruct (decide (x = h')) as [->|Hne].
  - rewrite (filter_cons_False (λ y, y ≠ h')) by (by intros ?).
    destruct (decide (h' = h)) as [->|Hne'].
    + rewrite filter_cons_True by done. cbn. lia.
    + by rewrite filter_cons_False.
  - rewrite (filter_cons_True (λ y, y ≠ h')) by done.
    destruct (decide (x = h)) as [->|Hne'].
    + rewrite !filter_cons_True by done. cbn. lia.
    + by rewrite !filter_cons_False.
Qed.

Lemma registrations_cons (h : HandlerPtr) (op : Op) (ops : list Op) :
  registrations h (op :: ops) =
  (if decide (op = Register h) then 1 else 0) + registrations h ops.
Proof.
  unfold registrations. destruct (decide (op = Register h)) as [->|Hne].
  - by rewrite filter_cons_True.
  - by rewrite filter_cons_False.
Qed.

Lemma registrations_zero (h : HandlerPtr) (ops : list Op) :
  Register h ∉ ops → registrations h ops = 0.
Proof.
  induction ops as [|op ops IH]; [done|].
  intros [Hop Hops]%not_elem_of_cons. rewrite registrations_cons, IH by done.
  by rewrite decide_False.
Qed.

(** One operation from a valid state: it returns, the state stays valid,
    the call log grows by [cs], and the handler sequence changes as shown. *)
Lemma step_effect (flag : bool) (op : Op) (st : State) :
  slot_valid st →
  ∃ st' cs, exec (step flag op) st = Some st' ∧ slot_valid st' ∧
            calls st' = calls st ++ cs ∧
            match op with
            | Register h =>
                cs = [] ∧
                handlers st' = (if flag then handlers st ++ [h] else handlers st)
            | Unregister h =>
                cs = [] ∧
                handlers st' = (if flag then list_remove h (handlers st) else handlers st)
            | Invoke os =>
                cs = map (λ x, OnFatalError x os) (handlers st) ∧
                handlers st' = []
            end.
Proof.
  intros Hv. destruct op as [h|h|os]; cbn [step].
  - destruct flag.
    + destruct (register_spec h st Hv) as (st' & Hex & Hv'%slot_populated_valid & Hh & Hc).
      exists st', []. by rewrite app_nil_r.
    + exists st, []. by rewrite app_nil_r.
  - destruct flag.
    + destruct (remove_spec h st Hv) as (st' & Hex & Hv'%slot_populated_valid & Hh & Hc).
      exists st', []. by rewrite app_nil_r.
    + exists st, []. by rewrite app_nil_r.
  - destruct (call_spec os st Hv) as (st' & Hex & Hnull & Hc).
    exists st', (map (λ x, OnFatalError x os) (handlers st)).
    unfold slot_valid, handlers. by rewrite Hnull.
Qed.

Lemma exec_run_cons (flag : bool) (op : Op) (ops : list Op) (st st1 : State) :
  exec (step flag op) st = Some st1 →
  exec (run flag (op :: ops)) st = exec (run flag ops) st1.
Proof.
  intros Hex. cbn [run]. rewrite exec_bind. unfold exec in Hex.
  destruct (step flag op st) as [[[] s]|]; [|done]. by injection Hex as ->.
Qed.

(** A sequence of operations from a valid state: it returns; every
    registration accounts for at most one call; every call was given the
    sink of an invocation of the sequence and goes to a handler that was
    registered at the start or by the sequence. *)
Lemma run_effect (flag : bool) (ops : list Op) (st : State) :
  slot_valid st →
  ∃ st' cs, exec (run flag ops) st = Some st' ∧ slot_valid st' ∧
            calls st' = calls st ++ cs ∧
            (∀ h, times_called h cs + occurrences h (handlers st')
                  ≤ occurrences h (handlers st) + registrations h ops) ∧
            (∀ x, x ∈ handlers st' → x ∈ handlers st ∨ Register x ∈ ops) ∧
            (∀ c, c ∈ cs → Invoke (sink c) ∈ ops ∧
                           (callee c ∈ handlers st ∨ Register (callee c) ∈ ops)).
Proof.
  revert st. induction ops as [|op ops IH]; intros st Hv.
  - exists st, []. rewrite app_nil_r. split_and!; [done..| | |].
    + intros h. cbn. lia.
    + by left.
    + by intros c ?%elem_of_nil.
  - destruct (step_effect flag op st Hv) as (st1 & cs1 & Hex1 & Hv1 & Hc1 & Hop).
    destruct (IH st1 Hv1) as (st2 & cs2 & Hex2 & Hv2 & Hc2 & Hacc & Hreg & Hsink).
    exists st2, (cs1 ++ cs2). rewrite (exec_run_cons _ _ _ _ _ Hex1).
    rewrite Hc2, Hc1, <- app_assoc. split_and!; [done..| | |].
    + intros h. specialize (Hacc h). rewrite times_called_app, registrations_cons.
      destruct op as [h'|h'|os]; destruct Hop as [-> Hh1]; rewrite Hh1 in Hacc.
      * destruct (decide (h' = h)) as [->|Hne];
          [rewrite decide_True by done|rewrite decide_False by congruence].
        -- destruct flag; [|unfold times_called at 1; cbn [filter length]; cbn; lia].
           rewrite occurrences_app in Hacc. unfold occurrences at 3 in Hacc.
           rewrite filter_cons_True in Hacc by done. cbn in *. lia.
        -- destruct flag; [|unfold times_called at 1; cbn [filter length]; cbn; lia].
           rewrite occurrences_app in Hacc. unfold occurrences at 3 in Hacc.
           rewrite filter_cons_False in Hacc by done. cbn in *. lia.
      * rewrite decide_False by done.
        pose proof (occurrences_list_remove_le h h' (handlers st)).
        destruct flag; cbn in *; lia.
      * rewrite decide_False by done. rewrite times_called_map.
        cbn in *. lia.
    + intros x [Hx|Hx]%Hreg; [|right; by apply list_elem_of_further].
      destruct op as [h'|h'|os]; destruct Hop as [-> Hh1]; rewrite Hh1 in Hx.
      * destruct flag; [|by left].
        apply elem_of_app in Hx as [Hx|Hx%list_elem_of_singleton]; [by left|].
        right. rewrite Hx. apply list_elem_of_here.
      * destruct flag; [|by left]. rewrite list_remove_filter in Hx.
        apply list_elem_of_filter in Hx as [_ Hx]. by left.
      * by apply elem_of_nil in Hx.
    + intros c [Hc|Hc]%elem_of_app.
      * destruct op as [h'|h'|os]; destruct Hop as [-> Hh1];
          [by apply elem_of_nil in Hc..|].
        apply list_elem_of_fmap in Hc as (x & -> & Hx). cbn.
        split; [apply list_elem_of_here|by left].
      * destruct (Hsink c Hc) as [Hinv Hcal].
        split; [by apply list_elem_of_further|].
        destruct Hcal as [Hx|Hx]; [|right; by apply list_elem_of_further].
        destruct op as [h'|h'|os]; destruct Hop as [-> Hh1]; rewrite Hh1 in Hx.
        -- destruct flag; [|by left].
           apply elem_of_app in Hx as [Hx|Hx%list_elem_of_singleton]; [by left|].
           right. rewrite Hx. apply list_elem_of_here.
        -- destruct flag; [|by left]. rewrite list_remove_filter in Hx.
           apply list_elem_of_filter in Hx as [_ Hx]. by left.
        -- by apply elem_of_nil in Hx.
Qed.

(** ** No sequence of calls faults *)

(** X1: from a state whose slot is null or points to an allocated list, any
    sequence of register, unregister and invoke calls, in either build,
    runs to its end: no call uses or deletes a list that is not allocated,
    and the slot again is null or points to an allocated list. *)
Theorem run_never_faults (flag : bool) (ops : list Op) (st : State) :
  slot_valid st →
  ∃ st', exec (run flag ops) st = Some st' ∧ slot_valid st'.
Proof.
  intros Hv. destruct (run_effect flag ops st Hv) as (st' & cs & Hex & Hv' & _).
  by exists st'.
Qed.

Lemma run_never_faults_witness :
  slot_valid populated_example ∧
  ∃ st', exec (run true [Unregister 11%N; Invoke 1%N; Unregister 12%N;
                         Register 14%N; Invoke 2%N; Invoke 3%N])
              populated_example = Some st' ∧ slot_valid st'.
Proof.
  assert (Hv : slot_valid populated_example) by (by eexists).
  split; [exact Hv|].
  exact (run_never_faults true _ populated_example Hv).
Defined.

(** ** What an invocation does in any state *)

(** X2: in every valid state, [callFatalErrorHandlers os] returns having
    called the registered sequence from first to last, duplicates
    included, each call with the sink [os]: a handler is called as many
    times as it is registered.  It leaves the slot null, and the list the
    slot pointed to is deleted. *)
Theorem invoke_calls_registered_sequence (os : Ostream) (st : State) :
  slot_valid st →
  ∃ st', exec (callFatalErrorHandlers os) st = Some st' ∧
         new_calls st st' = map (λ h, OnFatalError h os) (handlers st) ∧
         (∀ h, times_called h (new_calls st st') = occurrences h (handlers st)) ∧
         fatal_error_handlers st' = None ∧
         (∀ p, fatal_error_handlers st = Some p → heap st' = delete p (heap st)).
Proof.
  intros Hv. unfold slot_valid, handlers, exec in *.
  destruct (fatal_error_handlers st) as [p|] eqn:Hslot.
  - destruct Hv as [l Hl]. rewrite (call_populated os st p l) by done.
    eexists; split; [done|]. rewrite Hl. cbn [default].
    erewrite new_calls_app by done.
    split_and!; [done| |done|by intros ? [= <-]].
    intros h. apply times_called_map.
  - rewrite call_null by done. exists st. rewrite new_calls_same.
    by split_and!.
Qed.

Lemma invoke_calls_registered_sequence_witness :
  slot_valid populated_example ∧
  ∃ st', exec (callFatalErrorHandlers 1%N) populated_example = Some st' ∧
         new_calls populated_example st'
           = map (λ h, OnFatalError h 1%N) (handlers populated_example) ∧
         (∀ h, times_called h (new_calls populated_example st')
               = occurrences h (handlers populated_example)) ∧
         fatal_error_handlers st' = None ∧
         (∀ p, fatal_error_handlers populated_example = Some p →
               heap st' = delete p (heap populated_example)).
Proof.
  assert (Hv : slot_valid populated_example) by (by eexists).
  split; [exact Hv|].
  exact (invoke_calls_registered_sequence 1%N populated_example Hv).
Defined.

(** ** Calls over a whole sequence of operations *)

(** X3: over any sequence of operations from a valid state, in either
    build, the number of calls a handler h receives is at most the number
    of entries for h at the start plus the number of registrations of h in
    the sequence: however many invocations there are, one registration is
    answered by at most one call. *)
Theorem one_call_per_registration
    (flag : bool) (ops : list Op) (h : HandlerPtr) (st : State) :
  slot_valid st →
  ∃ st', exec (run flag ops) st = Some st' ∧
         times_called h (new_calls st st') + occurrences h (handlers st')
         ≤ occurrences h (handlers st) + registrations h ops.
Proof.
  intros Hv. destruct (run_effect flag ops st Hv) as (st' & cs & Hex & _ & Hc & Hacc & _).
  exists st'. rewrite (new_calls_app _ _ _ Hc). by split.
Qed.

Lemma one_call_per_registration_witness :
  slot_valid populated_example ∧
  ∃ st', exec (run true [Invoke 1%N; Register 11%N; Invoke 2%N; Invoke 3%N])
              populated_example = Some st' ∧
         times_called 11%N (new_calls populated_example st')
           + occurrences 11%N (handlers st')
         ≤ occurrences 11%N (handlers populated_example)
           + registrations 11%N [Invoke 1%N; Register 11%N; Invoke 2%N; Invoke 3%N].
Proof.
  assert (Hv : slot_valid populated_example) by (by eexists).
  split; [exact Hv|].
  exact (one_call_per_registration true _ 11%N populated_example Hv).
Defined.

(** X4: once a handler h is unregistered (in a build that compiles removal
    in), no later invocation calls it, whatever operations follow, as long
    as h is not registered again; and h is not in the sequence at the end. *)
Theorem unregistered_handler_is_never_called
    (h : HandlerPtr) (ops : list Op) (st : State) :
  slot_valid st → Register h ∉ ops →
  ∃ st', exec (run true (Unregister h :: ops)) st = Some st' ∧
         times_called h (new_calls st st') = 0 ∧
         h ∉ handlers st'.
Proof.
  intros Hv Hnr.
  destruct (remove_spec h st Hv) as (st1 & Hex1 & Hv1%slot_populated_valid & Hh1 & Hc1).
  destruct (run_effect true ops st1 Hv1) as (st2 & cs & Hex2 & _ & Hc2 & Hacc & _).
  exists st2. rewrite (exec_run_cons true (Unregister h) ops st st1) by done.
  specialize (Hacc h).
  rewrite Hh1, occurrences_list_remove, registrations_zero in Hacc by done.
  rewrite Hc1 in Hc2. rewrite (new_calls_app _ _ _ Hc2).
  split_and!; [done|lia|]. apply occurrences_zero. lia.
Qed.

Lemma unregistered_handler_is_never_called_witness :
  slot_valid populated_example ∧
  (Register 11%N ∉ [Invoke 1%N; Register 15%N; Unregister 12%N; Invoke 2%N]) ∧
  ∃ st', exec (run true (Unregister 11%N ::
                         [Invoke 1%N; Register 15%N; Unregister 12%N; Invoke 2%N]))
              populated_example = Some st' ∧
         times_called 11%N (new_calls populated_example st') = 0 ∧
         11%N ∉ handlers st'.
Proof.
  assert (Hv : slot_valid populated_example) by (by eexists).
  assert (Hnr : Register 11%N ∉ [Invoke 1%N; Register 15%N; Unregister 12%N; Invoke 2%N])
    by compute_done.
  split; [exact Hv|]. split; [exact Hnr|].
  exact (unregistered_handler_is_never_called 11%N _ populated_example Hv Hnr).
Defined.

(** X5: over any sequence of operations from a valid state, in either
    build, every call that is made passes a sink that an invocation of the
    sequence was given, and goes to a handler that was in the list at the
    start or is registered by the sequence.  So without an invocation no
    handler is called: register and unregister call none. *)
Theorem calls_come_from_invocations
    (flag : bool) (ops : list Op) (st : State) :
  slot_valid st →
  ∃ st', exec (run flag ops) st = Some st' ∧
         ∀ c, c ∈ new_calls st st' →
              Invoke (sink c) ∈ ops ∧
              (callee c ∈ handlers st ∨ Register (callee c) ∈ ops).
Proof.
  intros Hv. destruct (run_effect flag ops st Hv) as (st' & cs & Hex & _ & Hc & _ & _ & Hcs).
  exists st'. rewrite (new_calls_app _ _ _ Hc). by split.
Qed.

Lemma calls_come_from_invocations_witness :
  slot_valid populated_example ∧
  ∃ st', exec (run true [Register 16%N; Invoke 1%N; Register 17%N; Invoke 2%N])
              populated_example = Some st' ∧
         ∀ c, c ∈ new_calls populated_example st' →
              Invoke (sink c) ∈ [Register 16%N; Invoke 1%N; Register 17%N; Invoke 2%N] ∧
              (callee c ∈ handlers populated_example ∨
               Register (callee c) ∈ [Register 16%N; Invoke 1%N; Register 17%N; Invoke 2%N]).
Proof.
  assert (Hv : slot_valid populated_example) by (by eexists).
  split; [exact Hv|].
  exact (calls_come_from_invocations true _ populated_example Hv).
Defined.

(** ** The heap holds the slot's list and nothing else *)

Lemma heap_owned_valid (st : State) : heap_owned st → slot_valid st.
Proof.
  unfold heap_owned, slot_valid. destruct (fatal_error_handlers st) as [p|]; [|done].
  intros [l ->]. exists l. apply lookup_singleton_eq.
Qed.

Lemma step_heap_owned (flag : bool) (op : Op) (st st' : State) :
  heap_owned st → exec (step flag op) st = Some st' → heap_owned st'.
Proof.
  unfold heap_owned, exec. intros Ho.
  destruct (fatal_error_handlers st) as [p|] eqn:Hslot.
  - destruct Ho as [l Hhp].
    assert (Hl : heap st !! p = Some l) by (rewrite Hhp; apply lookup_singleton_eq).
    destruct op as [h|h|os]; cbn [step].
    + destruct flag; [|intros [= <-]; rewrite Hslot; by exists l].
      rewrite (register_populated h st p l) by done. intros [= <-]. cbn.
      exists (l ++ [h]). by rewrite Hhp, insert_singleton_eq.
    + destruct flag; [|intros [= <-]; rewrite Hslot; by exists l].
      rewrite (remove_populated h st p l) by done. intros [= <-].
      destruct (list_empty (list_remove h l)); cbn.
      * by rewrite Hhp, delete_singleton_eq.
      * exists (list_remove h l). by rewrite Hhp, insert_singleton_eq.
    + rewrite (call_populated os st p l) by done. intros [= <-]. cbn.
      by rewrite Hhp, delete_singleton_eq.
  - destruct op as [h|h|os]; cbn [step].
    + destruct flag; [|intros [= <-]; by rewrite Hslot].
      rewrite register_null by done. intros [= <-]. cbn.
      exists [h]. by rewrite Ho, insert_empty.
    + rewrite remove_null by done. intros [= <-]. by rewrite Hslot.
    + rewrite call_null by done. intros [= <-]. by rewrite Hslot.
Qed.

(** X6: the lists are neither leaked nor kept after deletion.  Initially
    nothing is allocated; and any sequence of operations, in either build,
    started with the heap holding exactly the list the slot points to
    (nothing when the slot is null), ends with the heap holding exactly the
    list the slot points to.  So after an invocation, or after the last
    handler is unregistered, no list is left allocated. *)
Theorem heap_holds_only_the_slot_list
    (flag : bool) (ops : list Op) (st st' : State) :
  heap_owned st → exec (run flag ops) st = Some st' →
  heap_owned st' ∧ (fatal_error_handlers st' = None → heap st' = ∅).
Proof.
  intros Ho Hex. assert (Ho' : heap_owned st').
  { revert st Ho Hex. induction ops as [|op ops IH]; intros st Ho.
    - by intros [= <-].
    - destruct (step_effect flag op st (heap_owned_valid st Ho))
        as (st1 & cs & Hex1 & _).
      rewrite (exec_run_cons _ _ _ _ _ Hex1).
      apply IH. by apply (step_heap_owned flag op st). }
  split; [done|]. unfold heap_owned in Ho'. intros Hnull. by rewrite Hnull in Ho'.
Qed.

Lemma heap_holds_only_the_slot_list_witness :
  heap_owned populated_example ∧
  ∃ st', exec (run true [Register 4%N; Invoke 1%N; Unregister 4%N]) populated_example
           = Some st' ∧
         heap_owned st' ∧
         (fatal_error_handlers st' = None → heap st' = ∅).
Proof.
  assert (Ho : heap_owned populated_example) by (by eexists).
  pose (st' := mkState None ∅
                 (OnFatalError 9%N 0%N ::
                  map (λ h, OnFatalError h 1%N) [11; 12; 11; 13; 4]%N)).
  assert (Hex : exec (run true [Register 4%N; Invoke 1%N; Unregister 4%N])
                     populated_example = Some st') by (vm_compute; reflexivity).
  split; [exact Ho|]. exists st'. split; [exact Hex|].
  exact (heap_holds_only_the_slot_list true _ populated_example st' Ho Hex).
Defined.

(** ** Unregistering composes *)

Lemma list_remove_comm (h1 h2 : HandlerPtr) (l : FailureFunctionList) :
  list_remove h1 (list_remove h2 l) = list_remove h2 (list_remove h1 l).
Proof.
  induction l as [|x l IH]; [done|]. cbn [list_remove].
  destruct (decide (x = h2)) as [E2|N2], (decide (x = h1)) as [E1|N1];
    cbn [list_remove];
    rewrite ?(decide_True _ _ E1), ?(decide_True _ _ E2),
            ?(decide_False _ _ N1), ?(decide_False _ _ N2);
    by rewrite ?IH.
Qed.

Lemma list_remove_idemp (h : HandlerPtr) (l : FailureFunctionList) :
  list_remove h (list_remove h l) = list_remove h l.
Proof.
  apply list_remove_absent. rewrite list_remove_filter.
  intros [Hne _]%list_elem_of_filter. done.
Qed.

(** Two unregistrations in a row, on a slot that points to the list [l]. *)
Lemma remove_remove_populated (h1 h2 : HandlerPtr) (st : State) (p : ListPtr)
    (l : FailureFunctionList) :
  fatal_error_handlers st = Some p → heap st !! p = Some l →
  exec (run true [Unregister h1; Unregister h2]) st =
  Some (if list_empty (list_remove h2 (list_remove h1 l))
        then mkState None (delete p (heap st)) (calls st)
        else mkState (Some p) (<[p := list_remove h2 (list_remove h1 l)]> (heap st))
                     (calls st)).
Proof.
  intros Hslot Hl. cbn [run]. rewrite exec_bind. cbn [step].
  rewrite (remove_populated h1 st p l) by done.
  rewrite (run_single true (Unregister h2)). cbn [step]. unfold exec.
  destruct (list_remove h1 l) as [|x r] eqn:Hr; cbn [list_empty].
  - by rewrite remove_null.
  - erewrite remove_populated; [|done|apply lookup_insert_eq]. cbn [heap calls].
    destruct (list_empty (list_remove h2 (x :: r))).
    + by rewrite delete_insert_eq.
    + by rewrite insert_insert_eq.
Qed.

(** X7: unregistrations commute.  From every valid state, unregistering h1
    and then h2 returns in the same state, heap included, as unregistering
    h2 and then h1. *)
Theorem unregister_commutes (h1 h2 : HandlerPtr) (st : State) :
  slot_valid st →
  ∃ st', exec (run true [Unregister h1; Unregister h2]) st = Some st' ∧
         exec (run true [Unregister h2; Unregister h1]) st = Some st'.
Proof.
  unfold slot_valid. intros Hv.
  destruct (fatal_error_handlers st) as [p|] eqn:Hslot.
  - destruct Hv as [l Hl].
    rewrite (remove_remove_populated h1 h2 st p l), (remove_remove_populated h2 h1 st p l)
      by done.
    rewrite (list_remove_comm h2 h1). by eexists.
  - exists st. split.
    + apply (run_unregisters_null true [h1; h2]), Hslot.
    + apply (run_unregisters_null true [h2; h1]), Hslot.
Qed.

Lemma unregister_commutes_witness :
  slot_valid populated_example ∧
  ∃ st', exec (run true [Unregister 11%N; Unregister 13%N]) populated_example = Some st' ∧
         exec (run true [Unregister 13%N; Unregister 11%N]) populated_example = Some st'.
Proof.
  assert (Hv : slot_valid populated_example) by (by eexists).
  split; [exact Hv|].
  exact (unregister_commutes 11%N 13%N populated_example Hv).
Defined.

(** X8: unregistering is idempotent.  From every valid state, unregistering
    h a second time right after the first returns and changes nothing: the
    state after two unregistrations is the state after one. *)
Theorem unregister_twice_is_once (h : HandlerPtr) (st : State) :
  slot_valid st →
  ∃ st', exec (removeFatalErrorHandler true h) st = Some st' ∧
         exec (run true [Unregister h; Unregister h]) st = Some st' ∧
         removeFatalErrorHandler true h st' = Some (tt, st').
Proof.
  unfold slot_valid. intros Hv.
  destruct (fatal_error_handlers st) as [p|] eqn:Hslot.
  - destruct Hv as [l Hl].
    rewrite (remove_remove_populated h h st p l) by done.
    unfold exec. rewrite (remove_populated h st p l) by done.
    rewrite list_remove_idemp.
    eexists; split_and!; [done..|].
    destruct (list_remove h l) as [|x r] eqn:Hr; cbn [list_empty].
    + by apply remove_null.
    + erewrite remove_populated; [|done|apply lookup_insert_eq]. cbn [heap calls].
      rewrite <- Hr, list_remove_idemp, Hr. cbn [list_empty].
      by rewrite insert_insert_eq.
  - exists st. unfold exec. rewrite remove_null by done. split_and!; [done| |done].
    apply (run_unregisters_null true [h; h]), Hslot.
Qed.

Lemma unregister_twice_is_once_witness :
  slot_valid populated_example ∧
  ∃ st', exec (removeFatalErrorHandler true 11%N) populated_example = Some st' ∧
         exec (run true [Unregister 11%N; Unregister 11%N]) populated_example = Some st' ∧
         removeFatalErrorHandler true 11%N st' = Some (tt, st').
Proof.
  assert (Hv : slot_valid populated_example) by (by eexists).
  split; [exact Hv|].
  exact (unregister_twice_is_once 11%N populated_example Hv).
Defined.

(** ** A fatal signal in the middle of an entry point *)

Ltac unfold_steps :=
  unfold exec, registerFatalErrorHandler_signalled, removeFatalErrorHandler_signalled,
    registerFatalErrorHandler, removeFatalErrorHandler, callFatalErrorHandlers,
    fatal_signal_at, no_signal, signal_outcome, run, step,
    push_back, remove, empty, update, deref, delete_list,
    new_FailureFunctionList, atomic_exchange, atomic_store,
    mbind, M_bind, mret, M_ret;
  cbn [Nat.eqb fatal_error_handlers heap calls].

Ltac split_step :=
  match goal with
  | H : ?m !! ?q = _ |- context [?m !! ?q] => rewrite H
  | |- context [<[?q := _]> _ !! ?q] => rewrite lookup_insert_eq
  | |- context [match ?m !! ?q with _ => _ end] => destruct (m !! q) eqn:?
  | |- context [if list_empty ?l then _ else _] => destruct (list_empty l) eqn:?
  end.

(** Runs both sides of an equation between computations on a state given by
    its fields, splitting on each heap lookup and emptiness test met. *)
Ltac run_both_sides :=
  repeat progress
    (unfold_steps; rewrite ?for_each_onFatalError;
     cbn [Nat.eqb fatal_error_handlers heap calls]; try split_step);
  try reflexivity.

(** Without a signal the entry points with numbered places are the entry
    points themselves. *)
Lemma register_no_signal (flag : bool) (h : HandlerPtr) (st : State) :
  registerFatalErrorHandler_signalled no_signal flag h st
  = registerFatalErrorHandler flag h st.
Proof. by destruct flag. Qed.

Lemma remove_no_signal (flag : bool) (h : HandlerPtr) (st : State) :
  removeFatalErrorHandler_signalled no_signal flag h st
  = removeFatalErrorHandler flag h st.
Proof. destruct flag; [|done]. destruct st as [[p|] hp cs]; run_both_sides. Qed.

Lemma for_each_no_signal (k : nat) (l : FailureFunctionList)
    (body : HandlerPtr → M unit) (st : State) :
  for_each_signalled no_signal k l body st = for_each l body st.
Proof.
  revert k st. induction l as [|h l IH]; intros k st; [done|].
  cbn [for_each_signalled for_each]. unfold mbind, M_bind.
  destruct (body h st) as [[[] s]|]; [|done]. cbn. apply IH.
Qed.

Lemma call_no_signal (os : Ostream) (st : State) :
  callFatalErrorHandlers_signalled no_signal os st = callFatalErrorHandlers os st.
Proof.
  destruct st as [[p|] hp cs]; [|done].
  unfold callFatalErrorHandlers_signalled, callFatalErrorHandlers, mbind, M_bind.
  cbn. unfold deref. cbn. destruct (hp !! p) as [l|]; [|done].
  rewrite for_each_no_signal.
  destruct (for_each l _ _) as [[[] s]|]; [|done].
  by destruct (delete_list p s) as [[[] s']|].
Qed.

Lemma signal_register_outcome (k : nat) (os : Ostream) (h : HandlerPtr) (st : State) :
  exec (registerFatalErrorHandler_signalled (fatal_signal_at k os) true h) st
  = exec (run true (signal_outcome k 4 os (Register h))) st.
Proof.
  destruct st as [[p|] hp cs]; destruct k as [|[|[|[|[|k]]]]]; run_both_sides.
Qed.

Lemma signal_remove_outcome (k : nat) (os : Ostream) (h : HandlerPtr) (st : State) :
  exec (removeFatalErrorHandler_signalled (fatal_signal_at k os) true h) st
  = exec (run true (signal_outcome k 3 os (Unregister h))) st.
Proof.
  destruct st as [[p|] hp cs]; destruct k as [|[|[|[|k]]]]; run_both_sides.
Qed.

(** On a null slot the signal handler does nothing. *)
Lemma fatal_signal_null (k : nat) (os : Ostream) (place : nat) (st : State) :
  fatal_error_handlers st = None → fatal_signal_at k os place st = Some (tt, st).
Proof.
  intros Hnull. unfold fatal_signal_at. destruct (Nat.eqb place k); [|done].
  by apply call_null.
Qed.

Lemma for_each_fatal_signal (k j : nat) (os' os : Ostream) (l : FailureFunctionList)
    (st : State) :
  fatal_error_handlers st = None →
  for_each_signalled (fatal_signal_at k os') j l (λ h, onFatalError h os) st
  = for_each l (λ h, onFatalError h os) st.
Proof.
  revert j st. induction l as [|h l IH]; intros j st Hnull; [done|].
  cbn [for_each_signalled for_each]. unfold mbind, M_bind.
  unfold onFatalError at 1 3. cbv beta iota.
  rewrite fatal_signal_null by done. by apply IH.
Qed.

Lemma signal_call_outcome (k : nat) (os' os : Ostream) (st : State) :
  exec (callFatalErrorHandlers_signalled (fatal_signal_at k os') os) st
  = exec (run true (if Nat.eqb k 0 then [Invoke os'; Invoke os] else [Invoke os])) st.
Proof.
  destruct k as [|k]; cbn [Nat.eqb].
  - unfold callFatalErrorHandlers_signalled. cbn [run step].
    rewrite !exec_bind. unfold fatal_signal_at at 1. cbn [Nat.eqb].
    destruct (callFatalErrorHandlers os' st) as [[[] s]|] eqn:Hcall; [|done].
    assert (Hnull : fatal_error_handlers s = None).
    { destruct st as [[p|] hp cs].
      - unfold callFatalErrorHandlers, mbind, M_bind in Hcall. cbn in Hcall.
        unfold deref in Hcall. cbn in Hcall. destruct (hp !! p) as [l|]; [|done].
        rewrite for_each_onFatalError in Hcall. cbn in Hcall.
        unfold delete_list in Hcall. cbn in Hcall.
        destruct (hp !! p); [|done]. by injection Hcall as <-.
      - by injection Hcall as <-. }
    rewrite (run_single true (Invoke os)). cbn [step].
    destruct s as [slot hp cs]. cbn in Hnull. subst slot. reflexivity.
  - rewrite run_single. cbn [step].
    unfold callFatalErrorHandlers_signalled, callFatalErrorHandlers, exec, mbind, M_bind.
    unfold fatal_signal_at at 1. cbn [Nat.eqb]. unfold mret, M_ret, atomic_exchange.
    rewrite fatal_signal_null by done.
    destruct st as [[p|] hp cs]; cbn [fatal_error_handlers heap calls]; [|done].
    unfold deref. cbn [heap]. destruct (hp !! p) as [l|] eqn:Hl; [|done].
    rewrite for_each_fatal_signal by done.
    rewrite for_each_onFatalError. cbn [fatal_error_handlers heap calls].
    unfold delete_list. cbn [fatal_error_handlers heap calls]. rewrite Hl.
    by rewrite fatal_signal_null.
Qed.

Lemma signal_outcome_inside (k last : nat) (os : Ostream) (op : Op) :
  k ≠ 0 → k ≠ last → signal_outcome k last os op = [op].
Proof.
  intros H0 Hlast. unfold signal_outcome.
  destruct (Nat.eqb_spec k 0); [done|]. by destruct (Nat.eqb_spec k last).
Qed.

(** X9: a fatal signal delivered to a thread that is inside
    [registerFatalErrorHandler] (with registration compiled in) does not
    fault, whatever place it arrives at.  The outcome is that of a
    sequential execution: invocation then registration when the signal
    arrives before the exchange, registration then invocation when it
    arrives after the store.  Between the two the signal handler finds the
    slot null: it calls no handler, and the registration ends in the state
    it ends in without a signal. *)
Theorem fatal_signal_during_register
    (k : nat) (os : Ostream) (h : HandlerPtr) (st : State) :
  slot_valid st →
  ∃ st', exec (registerFatalErrorHandler_signalled (fatal_signal_at k os) true h) st
           = Some st' ∧
         exec (run true (signal_outcome k 4 os (Register h))) st = Some st' ∧
         (k ≠ 0 → k ≠ 4 →
          new_calls st st' = [] ∧
          exec (registerFatalErrorHandler true h) st = Some st').
Proof.
  intros Hv. rewrite signal_register_outcome.
  destruct (run_effect true (signal_outcome k 4 os (Register h)) st Hv)
    as (st' & cs & Hex & _).
  exists st'. split_and!; [done..|]. intros H0 H4.
  rewrite signal_outcome_inside, (run_single true (Register h)) in Hex by done.
  cbn [step] in Hex. split; [|done].
  destruct (register_spec h st Hv) as (st1 & Hex1 & _ & _ & Hc).
  rewrite Hex in Hex1. injection Hex1 as <-.
  apply new_calls_app. by rewrite app_nil_r.
Qed.

Lemma fatal_signal_during_register_witness :
  slot_valid populated_example ∧
  ∃ st', exec (registerFatalErrorHandler_signalled (fatal_signal_at 2 1%N) true 14%N)
              populated_example = Some st' ∧
         exec (run true (signal_outcome 2 4 1%N (Register 14%N))) populated_example
           = Some st' ∧
         new_calls populated_example st' = [] ∧
         exec (registerFatalErrorHandler true 14%N) populated_example = Some st'.
Proof.
  assert (Hv : slot_valid populated_example) by (by eexists).
  split; [exact Hv|].
  destruct (fatal_signal_during_register 2 1%N 14%N populated_example Hv)
    as (st' & Hsig & Hseq & Hin).
  exists st'. split; [exact Hsig|]. split; [exact Hseq|].
  apply Hin; discriminate.
Defined.

(** X10: a fatal signal delivered to a thread that is inside
    [removeFatalErrorHandler] (with removal compiled in) does not fault,
    whatever place it arrives at.  The outcome is that of a sequential
    execution: invocation then removal when the signal arrives before the
    exchange, removal then invocation when it arrives after the last
    statement.  Between the two the signal handler finds the slot null: it
    calls no handler, and the removal ends in the state it ends in without
    a signal. *)
Theorem fatal_signal_during_remove
    (k : nat) (os : Ostream) (h : HandlerPtr) (st : State) :
  slot_valid st →
  ∃ st', exec (removeFatalErrorHandler_signalled (fatal_signal_at k os) true h) st
           = Some st' ∧
         exec (run true (signal_outcome k 3 os (Unregister h))) st = Some st' ∧
         (k ≠ 0 → k ≠ 3 →
          new_calls st st' = [] ∧
          exec (removeFatalErrorHandler true h) st = Some st').
Proof.
  intros Hv. rewrite signal_remove_outcome.
  destruct (run_effect true (signal_outcome k 3 os (Unregister h)) st Hv)
    as (st' & cs & Hex & _).
  exists st'. split_and!; [done..|]. intros H0 H3.
  rewrite signal_outcome_inside, (run_single true (Unregister h)) in Hex by done.
  cbn [step] in Hex. split; [|done].
  destruct (remove_spec h st Hv) as (st1 & Hex1 & _ & _ & Hc).
  rewrite Hex in Hex1. injection Hex1 as <-.
  apply new_calls_app. by rewrite app_nil_r.
Qed.

Lemma fatal_signal_during_remove_witness :
  slot_valid populated_example ∧
  ∃ st', exec (removeFatalErrorHandler_signalled (fatal_signal_at 2 1%N) true 11%N)
              populated_example = Some st' ∧
         exec (run true (signal_outcome 2 3 1%N (Unregister 11%N))) populated_example
           = Some st' ∧
         new_calls populated_example st' = [] ∧
         exec (removeFatalErrorHandler true 11%N) populated_example = Some st'.
Proof.
  assert (Hv : slot_valid populated_example) by (by eexists).
  split; [exact Hv|].
  destruct (fatal_signal_during_remove 2 1%N 11%N populated_example Hv)
    as (st' & Hsig & Hseq & Hin).
  exists st'. split; [exact Hsig|]. split; [exact Hseq|].
  apply Hin; discriminate.
Defined.

(** X11: a second fatal signal delivered while [callFatalErrorHandlers os]
    runs (before the exchange, after it, after any handler's call, or after
    the delete) does not fault, and the registered handlers are called once
    each in total: all by the signal's invocation, with its sink [os'],
    when the signal arrives before the exchange, and all by the interrupted
    invocation, with [os], otherwise, the nested one finding the slot null
    and calling nothing. *)
Theorem fatal_signal_during_invocation
    (k : nat) (os' os : Ostream) (st : State) :
  slot_valid st →
  ∃ st', exec (callFatalErrorHandlers_signalled (fatal_signal_at k os') os) st
           = Some st' ∧
         new_calls st st'
           = map (λ h, OnFatalError h (if Nat.eqb k 0 then os' else os)) (handlers st) ∧
         fatal_error_handlers st' = None.
Proof.
  intros Hv. rewrite signal_call_outcome. destruct k as [|k]; cbn [Nat.eqb].
  - destruct (call_spec os' st Hv) as (st1 & Hex1 & Hnull & Hc1).
    exists st1. rewrite (exec_run_cons true (Invoke os') [Invoke os] st st1) by done.
    rewrite (run_single true (Invoke os)). cbn [step]. unfold exec.
    rewrite call_null by done. split_and!; [done| |done].
    by apply new_calls_app.
  - destruct (call_spec os st Hv) as (st1 & Hex1 & Hnull & Hc1).
    exists st1. rewrite (run_single true (Invoke os)). cbn [step].
    split_and!; [done| |done]. by apply new_calls_app.
Qed.

Lemma fatal_signal_during_invocation_witness :
  slot_valid populated_example ∧
  ∃ st', exec (callFatalErrorHandlers_signalled (fatal_signal_at 3 2%N) 1%N)
              populated_example = Some st' ∧
         new_calls populated_example st'
           = map (λ h, OnFatalError h 1%N) (handlers populated_example) ∧
         fatal_error_handlers st' = None.
Proof.
  assert (Hv : slot_valid populated_example) by (by eexists).
  split; [exact Hv|].
  exact (fatal_signal_during_invocation 3 2%N 1%N populated_example Hv).
Defined.
